(** * polywog: raw polynomial expansion ([src/polynomials.cpp])

    A shallow embedding of [rawToPoly] and the properties of its result.

    - An [Rcpp::NumericVector] is a sequence of IEEE binary64 numbers: a
      [list float] over Rocq's primitive floats, so [*] below is the
      hardware multiplication of doubles.
    - An [Rcpp::IntegerMatrix] is an R integer vector stored column by
      column together with its two dimensions.
    - [pow] comes from the C library and not from this repository: it is a
      parameter of the development.  Every call of it is recorded, so that
      what reaches the power operation can be stated.
    - [Rcpp::stop] raises an exception: the computation lives in a small
      state and exception monad over the objects the function touches.
    - [n_poly + 1] is an addition of C [int]s: beyond the range of [int] it
      is undefined, and the run ends there without a vector. *)

From Stdlib Require Import ZArith Lia Floats String.
From stdpp Require Import base list.

Local Open Scope Z_scope.

(** ** Data *)

Abbreviation NumericVector := (list float).
Abbreviation IntegerVector := (list Z).

(** An R integer matrix: [nrow * ncol] C [int]s, column-major.  The two
    dimensions are counts; R holds each in an [int], so that a matrix has at
    most [INT_MAX] rows and at most [INT_MAX] columns, and one of
    [INT_MAX] rows exists (with no column it holds no data at all).  The
    function reads the dimensions into [int]s and adds [1] to the first:
    that addition is modelled as the C addition it is, see [int_add].  An
    entry is any integer (R's [NA_integer_] is the least [int], a negative
    number). *)
Record IntegerMatrix := {
  nrow : nat;
  ncol : nat;
  cells : list Z
}.

(** [E(i, j)]: element [i + j * nrow] of the underlying vector. *)
Definition cell (E : IntegerMatrix) (i j : nat) : Z :=
  default 0 (cells E !! (i + j * nrow E)%nat).

(** [E.row(i)], read out into a vector of [ncol] elements. *)
Definition row (E : IntegerMatrix) (i : nat) : IntegerVector :=
  map (cell E i) (seq 0 (ncol E)).

(** The matrix whose rows are [rows], each of [v] elements (what R's
    [matrix(..., byrow = TRUE)] builds). *)
Definition matrix_byrow (v : nat) (rows : list (list Z)) : IntegerMatrix :=
  {| nrow := length rows;
     ncol := v;
     cells := mjoin (map (fun j => map (fun r => default 0 (r !! j)) rows) (seq 0 v)) |}.

(** ** The objects of one call, and the monad *)

(** [x] and [poly_terms] are the caller's objects (an Rcpp vector is a
    handle on the R object, so a write through it would be seen by the
    caller); [ans] and [powers] are the function's locals, [None] until
    their declaration is reached; [pow_calls] lists the arguments of the
    calls of [pow], oldest first. *)
Record Mem := {
  x : NumericVector;
  poly_terms : IntegerMatrix;
  ans : option NumericVector;
  powers : option IntegerVector;
  pow_calls : list (float * Z)
}.

Definition set_ans (a : NumericVector) (m : Mem) : Mem :=
  {| x := x m; poly_terms := poly_terms m; ans := Some a;
     powers := powers m; pow_calls := pow_calls m |}.

Definition set_powers (p : IntegerVector) (m : Mem) : Mem :=
  {| x := x m; poly_terms := poly_terms m; ans := ans m;
     powers := Some p; pow_calls := pow_calls m |}.

Definition log_pow (b : float) (e : Z) (m : Mem) : Mem :=
  {| x := x m; poly_terms := poly_terms m; ans := ans m;
     powers := powers m; pow_calls := pow_calls m ++ [(b, e)] |}.

(** How a computation ends: with a value, with the exception of
    [Rcpp::stop] and its message, or at an operation that C++ leaves
    undefined. *)
Inductive outcome (A : Type) : Type :=
| Return (a : A)
| Stop (msg : string)
| Undefined.
Arguments Return {A} a.
Arguments Stop {A} msg.
Arguments Undefined {A}.

Definition M (A : Type) : Type := Mem -> outcome A * Mem.

Definition ret {A} (a : A) : M A := fun m => (Return a, m).

Definition bind {A B} (c : M A) (k : A -> M B) : M B :=
  fun m =>
    match c m with
    | (Return a, m') => k a m'
    | (Stop msg, m') => (Stop msg, m')
    | (Undefined, m') => (Undefined, m')
    end.

Definition stop {A} (msg : string) : M A := fun m => (Stop msg, m).
Definition gets {A} (f : Mem -> A) : M A := fun m => (Return (f m), m).
Definition modify (f : Mem -> Mem) : M unit := fun m => (Return tt, f m).

Declare Scope cpp_scope.
Delimit Scope cpp_scope with cpp.
Notation "'let*' v ':=' c 'in' k" := (bind c (fun v => k))
  (at level 10, v name, c at level 100, k at level 200) : cpp_scope.
Notation "c ';;' k" := (bind c (fun _ => k))
  (at level 100, k at level 200, right associativity) : cpp_scope.

(** [for (int i = 0; i < n; i++) body(i)], the body run on each index. *)
Fixpoint for_each (l : list nat) (body : nat -> M unit) : M unit :=
  match l with
  | [] => ret tt
  | i :: l' => bind (body i) (fun _ => for_each l' body)
  end.

Definition for_upto (n : nat) (body : nat -> M unit) : M unit :=
  for_each (seq 0 n) body.

(** ** The arithmetic of [int] *)

Definition INT_MAX : Z := 2147483647.
Definition INT_MIN : Z := -2147483648.

(** [a + b] on two [int]s.  A sum outside the range of [int] is a signed
    overflow, which C++ leaves undefined (compilers that wrap give
    [n_poly + 1] the value [INT_MIN] at [n_poly = INT_MAX], a negative
    length that R refuses to allocate): the run ends there. *)
Definition int_add (a b : Z) : M Z :=
  fun m =>
    if (INT_MIN <=? a + b) && (a + b <=? INT_MAX)
    then (Return (a + b), m)
    else (Undefined, m).

(** ** rawToPoly *)

Definition ShapeMismatch : string :=
  "'x' must be the same length as the number of columns in 'poly_terms'".

Section RawToPoly.

Variable pow : float -> Z -> float.

(** [pow(b, e)]: the library call, recorded. *)
Definition call_pow (b : float) (e : Z) : M float :=
  bind (modify (log_pow b e)) (fun _ => ret (pow b e)).

(** [x[j]], [powers[j]] and [ans[k]]. *)
Definition x_at (j : nat) : M float :=
  gets (fun m => default 0%float (x m !! j)).

Definition powers_at (j : nat) : M Z :=
  gets (fun m => default 0 (default [] (powers m) !! j)).

Definition ans_at (k : nat) : M float :=
  gets (fun m => default 0%float (default [] (ans m) !! k)).

(** [ans[k] *= v] *)
Definition ans_mul_assign (k : nat) (v : float) : M unit :=
  (let* a := ans_at k in
   modify (fun m => set_ans (<[k := (a * v)%float]> (default [] (ans m))) m))%cpp.

(** The inner loop, lines 24 to 27.  The index [i + 1] is an [int] too:
    the loop is reached only after [n_poly + 1] has been computed within
    range, and [i < n_poly] in it, so that [i + 1] is within range as
    well. *)
Definition each_power (i : nat) (j : nat) : M unit :=
  (let* p := powers_at j in
   if 0 <? p then
     let* b := x_at j in
     let* v := call_pow b p in
     ans_mul_assign (i + 1) v
   else ret tt)%cpp.

(** The body of the outer loop, lines 23 to 27. *)
Definition each_row (n_variables : nat) (i : nat) : M unit :=
  (let* r := gets (fun m => row (poly_terms m) i) in
   modify (set_powers r) ;;
   for_upto n_variables (each_power i))%cpp.

Definition rawToPoly_body : M NumericVector :=
  (let* n_poly := gets (fun m => nrow (poly_terms m)) in
   let* n_variables := gets (fun m => ncol (poly_terms m)) in
   let* size := gets (fun m => length (x m)) in
   (if negb (size =? n_variables)%nat then stop ShapeMismatch else ret tt) ;;
   let* n_ans := int_add (Z.of_nat n_poly) 1 in
   modify (set_ans (replicate (Z.to_nat n_ans) 1%float)) ;;
   modify (set_powers []) ;;
   for_upto n_poly (each_row n_variables) ;;
   gets (fun m => default [] (ans m)))%cpp.

(** The objects as the call finds them. *)
Definition enter (xs : NumericVector) (E : IntegerMatrix) : Mem :=
  {| x := xs; poly_terms := E; ans := None; powers := None; pow_calls := [] |}.

Definition run (xs : NumericVector) (E : IntegerMatrix) : outcome NumericVector * Mem :=
  rawToPoly_body (enter xs E).

Definition rawToPoly (xs : NumericVector) (E : IntegerMatrix) : outcome NumericVector :=
  fst (run xs E).

End RawToPoly.

(** ** What the loops compute *)

Section Meaning.

Variable pow : float -> Z -> float.

(** One turn of the inner loop, seen from the accumulator [ans[i+1]]. *)
Definition times_power (xs : NumericVector) (p : IntegerVector)
    (acc : float) (j : nat) : float :=
  let e := default 0 (p !! j) in
  if 0 <? e then (acc * pow (default 0%float (xs !! j)) e)%float else acc.

(** The element written by row [i], from the value found there. *)
Definition row_value (xs : NumericVector) (E : IntegerMatrix)
    (i : nat) (acc : float) : float :=
  fold_left (times_power xs (row E i)) (seq 0 (ncol E)) acc.

(** One turn of the outer loop, seen from the whole of [ans]. *)
Definition after_row (xs : NumericVector) (E : IntegerMatrix)
    (a : NumericVector) (i : nat) : NumericVector :=
  <[(i + 1)%nat := row_value xs E i (default 0%float (a !! (i + 1)%nat))]> a.

(** The vector returned when the lengths agree. *)
Definition expansion (xs : NumericVector) (E : IntegerMatrix) : NumericVector :=
  fold_left (after_row xs E) (seq 0 (nrow E)) (replicate (nrow E + 1) 1%float).

(** One factor given as a base and an exponent, as the test of line 25
    lets it through. *)
Definition times_if_positive (acc : float) (be : float * Z) : float :=
  if 0 <? be.2 then (acc * pow be.1 be.2)%float else acc.

End Meaning.

(** The call of [pow] made at column [j], if any; the calls of a row; the
    calls of the whole run when the lengths agree. *)
Definition power_call (xs : NumericVector) (p : IntegerVector)
    (j : nat) : list (float * Z) :=
  let e := default 0 (p !! j) in
  if 0 <? e then [(default 0%float (xs !! j), e)] else [].

Definition row_calls (xs : NumericVector) (E : IntegerMatrix)
    (i : nat) : list (float * Z) :=
  flat_map (power_call xs (row E i)) (seq 0 (ncol E)).

Definition all_calls (xs : NumericVector) (E : IntegerMatrix) : list (float * Z) :=
  flat_map (row_calls xs E) (seq 0 (nrow E)).

(** ** Words of the specification *)

(** The product of a list of doubles, taken from the left, from [1.0]. *)
Definition product (l : list float) : float := fold_left PrimFloat.mul l 1%float.

(** [E] with every negative entry replaced by [0]. *)
Definition zero_negatives (E : IntegerMatrix) : IntegerMatrix :=
  {| nrow := nrow E; ncol := ncol E; cells := map (Z.max 0) (cells E) |}.

(** Each negative entry [E[i][j]] is handed to the power operation
    together with [x[j]]. *)
Definition negative_exponents_reach_pow
    (pow : float -> Z -> float) (xs : NumericVector) (E : IntegerMatrix) : Prop :=
  forall i j, (i < nrow E)%nat -> (j < ncol E)%nat -> cell E i j < 0 ->
    (default 0%float (xs !! j), cell E i j) ∈ pow_calls (run pow xs E).2.

(** ** Inputs for the examples *)

(** A power by repeated multiplication, to run the function. *)
Definition pow_by_mul (b : float) (e : Z) : float :=
  Z.iter e (fun r => (r * b)%float) 1%float.

Definition E_2_3 : IntegerMatrix :=
  matrix_byrow 2 [[1; 0]; [0; 1]; [1; 1]; [2; 0]].
Definition E_signs : IntegerMatrix := matrix_byrow 2 [[-1; 2]; [0; -3]].
Definition E_zero_row : IntegerMatrix := matrix_byrow 2 [[1; 2]; [0; 0]].
Definition E_one_row : IntegerMatrix := matrix_byrow 2 [[1; 0]].
Definition E_zero : IntegerMatrix := matrix_byrow 1 [[0]].
Definition E_cube : IntegerMatrix := matrix_byrow 3 [[3; 0; 0]].
Definition E_minus_one : IntegerMatrix := matrix_byrow 1 [[-1]].

(** ** Indexing, with its bounds *)

(** [operator[]] of an Rcpp vector does not check its index: out of range
    it is undefined.  The variant below makes every element access of the
    function explicit and ends the run at the first one out of range, so
    that their absence can be stated. *)
Definition OutOfBounds : string := "index out of bounds".

Definition in_bounds {A} (o : option A) : M A :=
  fun m =>
    match o with
    | Some a => (Return a, m)
    | None => (Stop OutOfBounds, m)
    end.

(** The reads of [poly_terms.row(i)], one per column. *)
Definition row_checked (E : IntegerMatrix) (i : nat) : option IntegerVector :=
  mapM (fun j => cells E !! (i + j * nrow E)%nat) (seq 0 (ncol E)).

Section Checked.

Variable pow : float -> Z -> float.

Definition x_at_checked (j : nat) : M float :=
  bind (gets (fun m => x m !! j)) in_bounds.

Definition powers_at_checked (j : nat) : M Z :=
  bind (gets (fun m => default [] (powers m) !! j)) in_bounds.

Definition ans_at_checked (k : nat) : M float :=
  bind (gets (fun m => default [] (ans m) !! k)) in_bounds.

Definition ans_mul_assign_checked (k : nat) (v : float) : M unit :=
  (let* a := ans_at_checked k in
   modify (fun m => set_ans (<[k := (a * v)%float]> (default [] (ans m))) m))%cpp.

Definition each_power_checked (i : nat) (j : nat) : M unit :=
  (let* p := powers_at_checked j in
   if 0 <? p then
     let* b := x_at_checked j in
     let* v := call_pow pow b p in
     ans_mul_assign_checked (i + 1) v
   else ret tt)%cpp.

Definition each_row_checked (n_variables : nat) (i : nat) : M unit :=
  (let* r := bind (gets (fun m => row_checked (poly_terms m) i)) in_bounds in
   modify (set_powers r) ;;
   for_upto n_variables (each_power_checked i))%cpp.

Definition rawToPoly_body_checked : M NumericVector :=
  (let* n_poly := gets (fun m => nrow (poly_terms m)) in
   let* n_variables := gets (fun m => ncol (poly_terms m)) in
   let* size := gets (fun m => length (x m)) in
   (if negb (size =? n_variables)%nat then stop ShapeMismatch else ret tt) ;;
   let* n_ans := int_add (Z.of_nat n_poly) 1 in
   modify (set_ans (replicate (Z.to_nat n_ans) 1%float)) ;;
   modify (set_powers []) ;;
   for_upto n_poly (each_row_checked n_variables) ;;
   gets (fun m => default [] (ans m)))%cpp.

Definition run_checked (xs : NumericVector) (E : IntegerMatrix)
    : outcome NumericVector * Mem :=
  rawToPoly_body_checked (enter xs E).

End Checked.

(** The pairs of a base and an exponent that row [i] sends to [pow]. *)
Definition positive_pairs (xs : NumericVector) (E : IntegerMatrix)
    (i : nat) : list (float * Z) :=
  filter (fun be => 0 < be.2) (zip xs (row E i)).

Definition E_no_columns : IntegerMatrix := matrix_byrow 0 [[]; []].
Definition E_no_rows : IntegerMatrix := matrix_byrow 2 [].
Definition E_short : IntegerMatrix := {| nrow := 2; ncol := 2; cells := [1; 2; 3] |}.

(** The matrix of [INT_MAX] rows and no column: R's
    [matrix(integer(0), nrow = .Machine$integer.max, ncol = 0)]. *)
Definition E_max_rows : IntegerMatrix :=
  {| nrow := Z.to_nat INT_MAX; ncol := 0; cells := [] |}.

(** ** Multiplying a double by [1.0] *)

Module Binary64.

Lemma shr_one_mantissa (mx : positive) :
  SpecFloat.iter_pos shr_1 52
    {| shr_m := Z.pos (4503599627370496 * mx); shr_r := false; shr_s := false |}
  = {| shr_m := Z.pos mx; shr_r := false; shr_s := false |}.
Proof. reflexivity. Qed.

Lemma digits_one_mantissa (mx : positive) :
  Z.pos (digits2_pos (4503599627370496 * mx)) = Z.pos (digits2_pos mx) + 52.
Proof. cbv [Pos.mul]. cbn [digits2_pos]. lia. Qed.

Lemma SF64mul_one_r (s : spec_float) :
  valid_binary s = true -> SF64mul s (Prim2SF 1%float) = s.
Proof.
  change (Prim2SF 1%float) with (S754_finite false 4503599627370496 (-52)).
  destruct s as [sx|sx| |sx mx ex]; cbn [SF64mul SFmul valid_binary]; intros Hb.
  - now destruct sx.
  - now destruct sx.
  - reflexivity.
  - unfold bounded, canonical_mantissa in Hb.
    apply andb_prop in Hb as [Hc He].
    apply Z.eqb_eq in Hc.
    rewrite Pos.mul_comm.
    unfold binary_round_aux, shr_fexp.
    cbn [Zdigits2 shr_record_of_loc].
    rewrite digits_one_mantissa.
    replace (Z.pos (digits2_pos mx) + 52 + (ex + -52))
      with (Z.pos (digits2_pos mx) + ex) by lia.
    rewrite Hc.
    replace (ex - (ex + -52)) with 52 by lia.
    cbn [shr]. rewrite shr_one_mantissa.
    cbn [shr_m loc_of_shr_record round_nearest_even Zdigits2].
    replace (ex + -52 + 52) with ex by lia.
    rewrite Hc, Z.sub_diag. cbn [shr shr_m].
    rewrite He. now destruct sx.
Qed.

(** [a * 1.0] is [a] for every double, NaN, infinities and signed zeros
    included. *)
Lemma mul_one_r (a : float) : (a * 1)%float = a.
Proof.
  apply Prim2SF_inj. rewrite mul_spec. apply SF64mul_one_r, Prim2SF_valid.
Qed.

Lemma SF64mul_one_l (s : spec_float) :
  valid_binary s = true -> SF64mul (Prim2SF 1%float) s = s.
Proof.
  change (Prim2SF 1%float) with (S754_finite false 4503599627370496 (-52)).
  destruct s as [sx|sx| |sx mx ex]; cbn [SF64mul SFmul valid_binary xorb];
    intros Hb; try reflexivity.
  unfold bounded, canonical_mantissa in Hb.
  apply andb_prop in Hb as [Hc He].
  apply Z.eqb_eq in Hc.
  unfold binary_round_aux, shr_fexp.
  cbn [Zdigits2 shr_record_of_loc].
  rewrite digits_one_mantissa.
  replace (Z.pos (digits2_pos mx) + 52 + (-52 + ex))
    with (Z.pos (digits2_pos mx) + ex) by lia.
  rewrite Hc.
  replace (ex - (-52 + ex)) with 52 by lia.
  cbn [shr]. rewrite shr_one_mantissa.
  cbn [shr_m loc_of_shr_record round_nearest_even Zdigits2].
  replace (-52 + ex + 52) with ex by lia.
  rewrite Hc, Z.sub_diag. cbn [shr shr_m].
  now rewrite He.
Qed.

(** [1.0 * a] is [a] for every double. *)
Lemma mul_one_l (a : float) : (1 * a)%float = a.
Proof.
  apply Prim2SF_inj. rewrite mul_spec. apply SF64mul_one_l, Prim2SF_valid.
Qed.

End Binary64.

(** ** The loops, run *)

Section Loops.

Variable pow : float -> Z -> float.

Lemma times_power_skip xs p acc j :
  (0 <? default 0 (p !! j)) = false -> times_power pow xs p acc j = acc.
Proof. unfold times_power. now intros ->. Qed.

Lemma for_each_cons i l body m :
  for_each (i :: l) body m
  = match body i m with
    | (Return _, m') => for_each l body m'
    | (Stop msg, m') => (Stop msg, m')
    | (Undefined, m') => (Undefined, m')
    end.
Proof. reflexivity. Qed.

Lemma each_power_step i j xs E a p log :
  each_power pow i j
    {| x := xs; poly_terms := E; ans := Some a; powers := Some p; pow_calls := log |}
  = (Return tt,
     {| x := xs; poly_terms := E;
        ans := Some (if 0 <? default 0 (p !! j)
                     then <[(i + 1)%nat :=
                            times_power pow xs p (default 0%float (a !! (i + 1)%nat)) j]> a
                     else a);
        powers := Some p;
        pow_calls := log ++ power_call xs p j |}).
Proof.
  unfold each_power, powers_at, gets, bind at 1, times_power, power_call.
  cbn [powers].
  change (default [] (Some p)) with p.
  case (0 <? default 0 (p !! j)).
  - reflexivity.
  - cbn. now rewrite app_nil_r.
Qed.

Lemma for_each_power i xs E p js : forall a log,
  (i + 1 < length a)%nat ->
  for_each js (each_power pow i)
    {| x := xs; poly_terms := E; ans := Some a; powers := Some p; pow_calls := log |}
  = (Return tt,
     {| x := xs; poly_terms := E;
        ans := Some (<[(i + 1)%nat :=
                 fold_left (times_power pow xs p) js
                   (default 0%float (a !! (i + 1)%nat))]> a);
        powers := Some p;
        pow_calls := log ++ flat_map (power_call xs p) js |}).
Proof.
  induction js as [|j js IH]; intros a log Hi.
  - cbn. rewrite app_nil_r.
    destruct (lookup_lt_is_Some_2 a (i + 1) Hi) as [v Hv].
    rewrite Hv. cbn. now rewrite (list_insert_id _ _ _ Hv).
  - rewrite for_each_cons, each_power_step.
    cbn [fold_left flat_map].
    destruct (0 <? default 0 (p !! j)) eqn:Hpos.
    + rewrite IH by (rewrite length_insert; exact Hi).
      rewrite list_insert_insert_eq, (list_lookup_insert_eq _ _ _ Hi).
      cbn [default from_option id]. now rewrite <- app_assoc.
    + rewrite IH by exact Hi.
      rewrite (times_power_skip _ _ _ _ Hpos). now rewrite <- app_assoc.
Qed.

Lemma each_row_step i xs E a p log :
  (i + 1 < length a)%nat ->
  each_row pow (ncol E) i
    {| x := xs; poly_terms := E; ans := Some a; powers := Some p; pow_calls := log |}
  = (Return tt,
     {| x := xs; poly_terms := E;
        ans := Some (after_row pow xs E a i);
        powers := Some (row E i);
        pow_calls := log ++ row_calls xs E i |}).
Proof.
  intros Hi.
  unfold each_row, for_upto, gets, modify, bind, set_powers.
  cbn [x poly_terms ans powers pow_calls].
  now rewrite for_each_power.
Qed.

Lemma length_after_rows xs E rows : forall a,
  length (fold_left (after_row pow xs E) rows a) = length a.
Proof.
  induction rows as [|i rows IH]; intros a; cbn; [done|].
  rewrite IH. apply length_insert.
Qed.

Lemma for_each_row xs E rows : forall a p log,
  (forall i, i ∈ rows -> (i + 1 < length a)%nat) ->
  for_each rows (each_row pow (ncol E))
    {| x := xs; poly_terms := E; ans := Some a; powers := Some p; pow_calls := log |}
  = (Return tt,
     {| x := xs; poly_terms := E;
        ans := Some (fold_left (after_row pow xs E) rows a);
        powers := Some (fold_left (fun _ i => row E i) rows p);
        pow_calls := log ++ flat_map (row_calls xs E) rows |}).
Proof.
  induction rows as [|i rows IH]; intros a p log Hin.
  - cbn. now rewrite app_nil_r.
  - rewrite for_each_cons, each_row_step by (apply Hin; left).
    cbn [fold_left flat_map].
    rewrite IH.
    + now rewrite <- app_assoc.
    + intros k Hk. unfold after_row. rewrite length_insert.
      apply Hin. now right.
Qed.

(** The whole run when the lengths agree, and when they do not. *)
Lemma int_add_in_range a b m :
  INT_MIN <= a + b <= INT_MAX -> int_add a b m = (Return (a + b), m).
Proof.
  intros [Hlo Hhi]. unfold int_add.
  apply Z.leb_le in Hlo, Hhi. now rewrite Hlo, Hhi.
Qed.

Lemma int_add_overflow a b m :
  INT_MAX < a + b -> int_add a b m = (Undefined, m).
Proof.
  intros Hhi. unfold int_add.
  apply Z.leb_gt in Hhi. rewrite Hhi. now rewrite andb_false_r.
Qed.

Lemma run_agree xs E :
  length xs = ncol E -> Z.of_nat (nrow E) < INT_MAX ->
  run pow xs E
  = (Return (expansion pow xs E),
     {| x := xs; poly_terms := E;
        ans := Some (expansion pow xs E);
        powers := Some (fold_left (fun _ i => row E i) (seq 0 (nrow E)) []);
        pow_calls := all_calls xs E |}).
Proof.
  intros Hlen Hrows.
  unfold run, rawToPoly_body, enter, gets, modify, stop, ret, bind at 1 2 3 4.
  cbn [x poly_terms].
  rewrite Hlen, Nat.eqb_refl. cbn [negb].
  unfold bind at 1. rewrite int_add_in_range by (unfold INT_MIN; lia).
  replace (Z.to_nat (Z.of_nat (nrow E) + 1)) with (nrow E + 1)%nat by lia.
  unfold bind at 1 2 3, for_upto, set_ans, set_powers.
  cbn [x poly_terms ans powers pow_calls].
  rewrite for_each_row.
  - reflexivity.
  - intros i Hi. apply elem_of_seq in Hi. rewrite length_replicate. lia.
Qed.

(** At [INT_MAX] rows [n_poly + 1] overflows: the run ends before the
    allocation of [ans]. *)
Lemma run_overflow xs E :
  length xs = ncol E -> INT_MAX <= Z.of_nat (nrow E) ->
  run pow xs E = (Undefined, enter xs E).
Proof.
  intros Hlen Hrows.
  unfold run, rawToPoly_body, enter, gets, modify, stop, ret, bind at 1 2 3 4.
  cbn [x poly_terms].
  rewrite Hlen, Nat.eqb_refl. cbn [negb].
  unfold bind at 1. now rewrite int_add_overflow by lia.
Qed.

Lemma run_differ xs E :
  length xs <> ncol E ->
  run pow xs E = (Stop ShapeMismatch, enter xs E).
Proof.
  intros Hlen.
  unfold run, rawToPoly_body, enter, gets, modify, stop, ret, bind at 1 2 3 4.
  cbn [x poly_terms].
  apply Nat.eqb_neq in Hlen. now rewrite Hlen.
Qed.

Lemma rawToPoly_agree xs E :
  length xs = ncol E -> Z.of_nat (nrow E) < INT_MAX ->
  rawToPoly pow xs E = Return (expansion pow xs E).
Proof. intros Hlen Hrows. unfold rawToPoly. now rewrite run_agree. Qed.

(** The three ways of a run. *)
Lemma run_cases xs E :
  (length xs <> ncol E /\ run pow xs E = (Stop ShapeMismatch, enter xs E)) \/
  (length xs = ncol E /\ INT_MAX <= Z.of_nat (nrow E) /\
   run pow xs E = (Undefined, enter xs E)) \/
  (length xs = ncol E /\ Z.of_nat (nrow E) < INT_MAX /\
   run pow xs E
   = (Return (expansion pow xs E),
      {| x := xs; poly_terms := E;
         ans := Some (expansion pow xs E);
         powers := Some (fold_left (fun _ i => row E i) (seq 0 (nrow E)) []);
         pow_calls := all_calls xs E |})).
Proof.
  destruct (decide (length xs = ncol E)) as [Hlen|Hlen].
  - destruct (Z_lt_le_dec (Z.of_nat (nrow E)) INT_MAX) as [Hrows|Hrows].
    + right. right. auto using run_agree.
    + right. left. auto using run_overflow.
  - left. auto using run_differ.
Qed.

End Loops.

(** ** The elements of the returned vector *)

Section Expansion.

Variable pow : float -> Z -> float.

Lemma lookup_after_rows_other xs E k rows : forall a,
  (forall i, i ∈ rows -> (i + 1)%nat <> k) ->
  fold_left (after_row pow xs E) rows a !! k = a !! k.
Proof.
  induction rows as [|i rows IH]; intros a Hk; cbn; [done|].
  rewrite IH by (intros; apply Hk; now right).
  apply list_lookup_insert_ne, Hk. left.
Qed.

Lemma lookup_after_rows xs E i v rows : forall a,
  NoDup rows -> i ∈ rows -> a !! (i + 1)%nat = Some v ->
  fold_left (after_row pow xs E) rows a !! (i + 1)%nat
  = Some (row_value pow xs E i v).
Proof.
  induction rows as [|i0 rows IH]; intros a Hnd Hin Hv.
  - inversion Hin.
  - apply NoDup_cons in Hnd as [Hfresh Hnd]. cbn.
    destruct (decide (i = i0)) as [->|Hne].
    + rewrite lookup_after_rows_other.
      * unfold after_row. rewrite Hv.
        apply list_lookup_insert_eq. eapply lookup_lt_Some, Hv.
      * intros k Hk Heq. assert (k = i0) by lia. now subst.
    + apply IH; [done| |].
      * apply elem_of_cons in Hin as [?|?]; [contradiction|done].
      * unfold after_row. rewrite list_lookup_insert_ne by lia. exact Hv.
Qed.

Lemma length_expansion xs E :
  length (expansion pow xs E) = (nrow E + 1)%nat.
Proof. unfold expansion. now rewrite length_after_rows, length_replicate. Qed.

Lemma expansion_first xs E : expansion pow xs E !! 0%nat = Some 1%float.
Proof.
  unfold expansion. rewrite lookup_after_rows_other by (intros; lia).
  apply lookup_replicate_2. lia.
Qed.

Lemma expansion_row xs E i :
  (i < nrow E)%nat ->
  expansion pow xs E !! (i + 1)%nat = Some (row_value pow xs E i 1%float).
Proof.
  intros Hi. unfold expansion. apply lookup_after_rows.
  - apply NoDup_seq.
  - apply elem_of_seq. lia.
  - apply lookup_replicate_2. lia.
Qed.

(** *** From indices to pairs of a base and an exponent *)

Lemma times_power_shift b e xs p n : forall k acc,
  fold_left (times_power pow (b :: xs) (e :: p)) (seq (S k) n) acc
  = fold_left (times_power pow xs p) (seq k n) acc.
Proof.
  induction n as [|n IH]; intros k acc; cbn [seq fold_left]; [done|].
  now rewrite IH.
Qed.

Lemma times_power_zip xs : forall p acc,
  length xs = length p ->
  fold_left (times_power pow xs p) (seq 0 (length xs)) acc
  = fold_left (times_if_positive pow) (zip xs p) acc.
Proof.
  induction xs as [|b xs IH]; intros [|e p] acc Hlen; try done.
  cbn [length seq fold_left zip zip_with].
  rewrite times_power_shift, IH by (cbn in Hlen; lia).
  reflexivity.
Qed.

Lemma length_row E i : length (row E i) = ncol E.
Proof. unfold row. now rewrite length_map, length_seq. Qed.

Lemma row_value_zip xs E i acc :
  length xs = ncol E ->
  row_value pow xs E i acc
  = fold_left (times_if_positive pow) (zip xs (row E i)) acc.
Proof.
  intros Hlen. unfold row_value. rewrite <- Hlen.
  apply times_power_zip. now rewrite length_row.
Qed.

End Expansion.

(** ** Products *)

Section Products.

Variable pow : float -> Z -> float.

Lemma times_if_positive_filter l : forall acc,
  fold_left (times_if_positive pow) l acc
  = fold_left PrimFloat.mul
      (map (fun be => pow be.1 be.2) (filter (fun be => 0 < be.2) l)) acc.
Proof.
  induction l as [|[b e] l IH]; intros acc; [done|].
  cbn [fold_left]. rewrite IH. unfold times_if_positive. cbn [fst snd].
  destruct (Z.ltb_spec 0 e) as [Hpos|Hneg].
  - now rewrite filter_cons_True.
  - rewrite filter_cons_False; [done|]. cbn. lia.
Qed.

Lemma times_if_positive_all xs :
  (forall b, pow b 0 = 1%float) ->
  forall p acc, Forall (fun e => 0 <= e) p ->
  fold_left (times_if_positive pow) (zip xs p) acc
  = fold_left PrimFloat.mul (zip_with pow xs p) acc.
Proof.
  intros Hpow0.
  induction xs as [|b xs IH]; intros [|e p] acc Hp; try done.
  apply Forall_cons in Hp as [He Hp].
  cbn [zip zip_with fold_left]. rewrite (IH p _ Hp).
  f_equal. unfold times_if_positive. cbn [fst snd].
  destruct (Z.ltb_spec 0 e) as [Hpos|Hneg]; [done|].
  assert (e = 0) as -> by lia.
  now rewrite Hpow0, Binary64.mul_one_r.
Qed.

Lemma times_if_positive_zeros xs : forall p acc,
  Forall (fun e => e = 0) p ->
  fold_left (times_if_positive pow) (zip xs p) acc = acc.
Proof.
  induction xs as [|b xs IH]; intros [|e p] acc Hp; try done.
  apply Forall_cons in Hp as [-> Hp].
  cbn [zip zip_with fold_left]. now rewrite (IH p _ Hp).
Qed.

End Products.

(** ** The calls of [pow] *)

Lemma power_call_positive xs p j : Forall (fun c => 0 < c.2) (power_call xs p j).
Proof.
  unfold power_call.
  destruct (Z.ltb_spec 0 (default 0 (p !! j))); repeat constructor. done.
Qed.

Lemma row_calls_positive xs E i : Forall (fun c => 0 < c.2) (row_calls xs E i).
Proof.
  unfold row_calls. induction (seq 0 (ncol E)) as [|j js IH]; cbn.
  - constructor.
  - apply Forall_app. split; [apply power_call_positive | exact IH].
Qed.

Lemma all_calls_positive xs E : Forall (fun c => 0 < c.2) (all_calls xs E).
Proof.
  unfold all_calls. induction (seq 0 (nrow E)) as [|i rows IH]; cbn.
  - constructor.
  - apply Forall_app. split; [apply row_calls_positive | exact IH].
Qed.

Lemma pow_calls_positive pow xs E :
  Forall (fun c => 0 < c.2) (pow_calls (run pow xs E).2).
Proof.
  destruct (run_cases pow xs E) as [(_ & ->)|[(_ & _ & ->)|(_ & _ & ->)]].
  - constructor.
  - constructor.
  - apply all_calls_positive.
Qed.

(** ** The matrix of [INT_MAX] rows *)

Lemma nrow_E_max_rows : Z.of_nat (nrow E_max_rows) = INT_MAX.
Proof.
  change (nrow E_max_rows) with (Z.to_nat INT_MAX).
  apply Z2Nat.id. unfold INT_MAX. lia.
Qed.

Lemma run_E_max_rows pow :
  run pow [] E_max_rows = (Undefined, enter [] E_max_rows).
Proof.
  apply run_overflow; [reflexivity|]. rewrite nrow_E_max_rows. lia.
Qed.

Lemma rawToPoly_E_max_rows pow : rawToPoly pow [] E_max_rows = Undefined.
Proof. unfold rawToPoly. now rewrite run_E_max_rows. Qed.

(** ** Negative entries *)

Lemma cell_zero_negatives E i j :
  cell (zero_negatives E) i j = Z.max 0 (cell E i j).
Proof.
  unfold cell, zero_negatives. cbn [cells nrow].
  rewrite list_lookup_fmap. now destruct (cells E !! _).
Qed.

Lemma row_zero_negatives E i : row (zero_negatives E) i = map (Z.max 0) (row E i).
Proof.
  unfold row. cbn [ncol zero_negatives]. rewrite map_map.
  apply map_ext. intros j. apply cell_zero_negatives.
Qed.

Lemma positive_max e : (0 <? Z.max 0 e) = (0 <? e).
Proof. destruct (Z.ltb_spec 0 e), (Z.ltb_spec 0 (Z.max 0 e)); lia || done. Qed.

Lemma times_power_max pow xs p acc j :
  times_power pow xs (map (Z.max 0) p) acc j = times_power pow xs p acc j.
Proof.
  unfold times_power. rewrite list_lookup_fmap.
  destruct (p !! j) as [e|]; cbn; [|done].
  rewrite positive_max. destruct (Z.ltb_spec 0 e); [|done].
  now rewrite Z.max_r by lia.
Qed.

Lemma power_call_max xs p j :
  power_call xs (map (Z.max 0) p) j = power_call xs p j.
Proof.
  unfold power_call. rewrite list_lookup_fmap.
  destruct (p !! j) as [e|]; cbn; [|done].
  rewrite positive_max. destruct (Z.ltb_spec 0 e); [|done].
  now rewrite Z.max_r by lia.
Qed.

Lemma fold_left_pointwise {A B} (f g : A -> B -> A) l :
  (forall a b, f a b = g a b) -> forall a, fold_left f l a = fold_left g l a.
Proof.
  intros Hfg. induction l as [|b l IH]; intros a; cbn; [done|].
  now rewrite Hfg, IH.
Qed.

Lemma expansion_zero_negatives pow xs E :
  expansion pow xs (zero_negatives E) = expansion pow xs E.
Proof.
  unfold expansion. cbn [nrow zero_negatives].
  apply fold_left_pointwise. intros a i.
  unfold after_row, row_value. cbn [ncol zero_negatives].
  rewrite row_zero_negatives. f_equal.
  apply fold_left_pointwise. intros. apply times_power_max.
Qed.

Lemma all_calls_zero_negatives xs E :
  all_calls xs (zero_negatives E) = all_calls xs E.
Proof.
  unfold all_calls, row_calls. cbn [nrow ncol zero_negatives].
  apply flat_map_ext. intros i.
  rewrite row_zero_negatives.
  apply flat_map_ext. intros j. apply power_call_max.
Qed.

(** ** Rows *)

Lemma Forall_row (P : Z -> Prop) E i :
  (forall j, (j < ncol E)%nat -> P (cell E i j)) -> Forall P (row E i).
Proof.
  intros HP. unfold row. apply Forall_fmap, Forall_seq.
  intros j Hj. apply HP. lia.
Qed.

(** ** Examples *)

Example rows_E_2_3 :
  map (row E_2_3) (seq 0 (nrow E_2_3)) = [[1; 0]; [0; 1]; [1; 1]; [2; 0]].
Proof. reflexivity. Qed.

Example cells_E_2_3 : cells E_2_3 = [1; 0; 1; 2; 0; 1; 1; 0].
Proof. reflexivity. Qed.

Example rows_E_signs :
  map (row E_signs) (seq 0 (nrow E_signs)) = [[-1; 2]; [0; -3]].
Proof. reflexivity. Qed.

Example rows_E_zero_row :
  map (row E_zero_row) (seq 0 (nrow E_zero_row)) = [[1; 2]; [0; 0]].
Proof. reflexivity. Qed.

Example rawToPoly_5 :
  rawToPoly pow_by_mul [5]%float E_zero = Return [1; 1]%float.
Proof. reflexivity. Qed.

Example rawToPoly_2_2_2 :
  rawToPoly pow_by_mul [2; 2; 2]%float E_cube
  = Return [1; 8]%float.
Proof. reflexivity. Qed.

Example rawToPoly_too_long :
  rawToPoly pow_by_mul [1; 2; 3]%float E_one_row
  = Stop ShapeMismatch.
Proof. reflexivity. Qed.

(** ** The properties of [rawToPoly] *)

(** *** With fewer than [INT_MAX] rows *)

(** X11: when [E] has fewer than [INT_MAX] rows, [x] has as many elements
    as [E] has columns and no entry of [E] is negative, element [i+1] of
    the result is the product, over all the variables [j] in order, of
    [x[j]] raised to [E[i][j]], for every row [i].  The power operation is
    taken to return [1.0] for the exponent [0], as the C standard has it. *)
Theorem rawToPoly_monomials pow xs E :
  (forall b, pow b 0 = 1%float) ->
  Z.of_nat (nrow E) < INT_MAX ->
  length xs = ncol E ->
  (forall i j, (i < nrow E)%nat -> (j < ncol E)%nat -> 0 <= cell E i j) ->
  exists r, rawToPoly pow xs E = Return r /\
    forall i, (i < nrow E)%nat ->
      r !! (i + 1)%nat = Some (product (zip_with pow xs (row E i))).
Proof.
  intros Hpow0 Hrows Hlen Hnonneg.
  exists (expansion pow xs E). split; [now apply rawToPoly_agree|].
  intros i Hi.
  rewrite expansion_row, row_value_zip by done.
  rewrite times_if_positive_all; [done..|].
  apply Forall_row. intros j Hj. now apply Hnonneg.
Qed.

Lemma rawToPoly_monomials_witness :
  (forall b, pow_by_mul b 0 = 1%float) /\
  Z.of_nat (nrow E_2_3) < INT_MAX /\
  length [2; 3]%float = ncol E_2_3 /\
  (forall i j, (i < nrow E_2_3)%nat -> (j < ncol E_2_3)%nat -> 0 <= cell E_2_3 i j) /\
  exists r, rawToPoly pow_by_mul [2; 3]%float E_2_3 = Return r /\
    forall i, (i < nrow E_2_3)%nat ->
      r !! (i + 1)%nat = Some (product (zip_with pow_by_mul [2; 3]%float (row E_2_3 i))).
Proof.
  assert (H0 : forall b, pow_by_mul b 0 = 1%float) by reflexivity.
  assert (Hrows : Z.of_nat (nrow E_2_3) < INT_MAX) by reflexivity.
  assert (Hlen : length [2; 3]%float = ncol E_2_3) by reflexivity.
  assert (Hnonneg : forall i j, (i < nrow E_2_3)%nat -> (j < ncol E_2_3)%nat ->
                      0 <= cell E_2_3 i j).
  { intros i j Hi Hj.
    destruct i as [|[|[|[|i]]]]; [| | | |simpl in Hi; lia];
      (destruct j as [|[|j]]; [| |simpl in Hj; lia]); vm_compute; discriminate. }
  split; [exact H0|]. split; [exact Hrows|]. split; [exact Hlen|].
  split; [exact Hnonneg|].
  exact (rawToPoly_monomials pow_by_mul [2; 3]%float E_2_3 H0 Hrows Hlen Hnonneg).
Defined.

(** X12: when [E] has fewer than [INT_MAX] rows and [x] has as many
    elements as [E] has columns, the function returns a vector of
    [nrow E + 1] elements. *)
Theorem rawToPoly_length pow xs E :
  Z.of_nat (nrow E) < INT_MAX ->
  length xs = ncol E ->
  exists r, rawToPoly pow xs E = Return r /\ length r = (nrow E + 1)%nat.
Proof.
  intros Hrows Hlen. exists (expansion pow xs E).
  split; [now apply rawToPoly_agree | apply length_expansion].
Qed.

Lemma rawToPoly_length_witness :
  Z.of_nat (nrow E_2_3) < INT_MAX /\
  length [2; 3]%float = ncol E_2_3 /\
  exists r, rawToPoly pow_by_mul [2; 3]%float E_2_3 = Return r /\
    length r = (nrow E_2_3 + 1)%nat.
Proof.
  split; [reflexivity|]. split; [reflexivity|].
  apply (rawToPoly_length pow_by_mul [2; 3]%float E_2_3); reflexivity.
Defined.

(** X13: when [E] has fewer than [INT_MAX] rows and [x] has as many
    elements as [E] has columns, the first element of the returned vector
    is [1.0]. *)
Theorem rawToPoly_first pow xs E :
  Z.of_nat (nrow E) < INT_MAX ->
  length xs = ncol E ->
  exists r, rawToPoly pow xs E = Return r /\ r !! 0%nat = Some 1%float.
Proof.
  intros Hrows Hlen. exists (expansion pow xs E).
  split; [now apply rawToPoly_agree | apply expansion_first].
Qed.

Lemma rawToPoly_first_witness :
  Z.of_nat (nrow E_zero) < INT_MAX /\
  length [5]%float = ncol E_zero /\
  exists r, rawToPoly pow_by_mul [5]%float E_zero = Return r /\
    r !! 0%nat = Some 1%float.
Proof.
  split; [reflexivity|]. split; [reflexivity|].
  apply (rawToPoly_first pow_by_mul [5]%float E_zero); reflexivity.
Defined.

(** X14: when [E] has fewer than [INT_MAX] rows and [x] has as many
    elements as [E] has columns, whatever the signs of the entries of [E],
    element [i+1] of the result is the product of [x[j]] raised to
    [E[i][j]] over the columns [j] with [E[i][j] > 0] only: a negative
    entry is left out like a zero. *)
Theorem rawToPoly_positive_entries pow xs E :
  Z.of_nat (nrow E) < INT_MAX ->
  length xs = ncol E ->
  exists r, rawToPoly pow xs E = Return r /\
    forall i, (i < nrow E)%nat ->
      r !! (i + 1)%nat
      = Some (product (map (fun be => pow be.1 be.2)
                         (filter (fun be => 0 < be.2) (zip xs (row E i))))).
Proof.
  intros Hrows Hlen.
  exists (expansion pow xs E). split; [now apply rawToPoly_agree|].
  intros i Hi.
  rewrite expansion_row, row_value_zip by done.
  now rewrite times_if_positive_filter.
Qed.

Lemma rawToPoly_positive_entries_witness :
  Z.of_nat (nrow E_signs) < INT_MAX /\
  length [2; 3]%float = ncol E_signs /\
  exists r, rawToPoly pow_by_mul [2; 3]%float E_signs = Return r /\
    forall i, (i < nrow E_signs)%nat ->
      r !! (i + 1)%nat
      = Some (product (map (fun be => pow_by_mul be.1 be.2)
                         (filter (fun be => 0 < be.2)
                            (zip [2; 3]%float (row E_signs i))))).
Proof.
  split; [reflexivity|]. split; [reflexivity|].
  apply (rawToPoly_positive_entries pow_by_mul [2; 3]%float E_signs);
    reflexivity.
Defined.

(** X15: when [E] has fewer than [INT_MAX] rows, [x] has as many elements
    as [E] has columns and row [i] of [E] holds only zeros, element [i+1]
    of the result is [1.0]. *)
Theorem rawToPoly_zero_row pow xs E i :
  Z.of_nat (nrow E) < INT_MAX ->
  length xs = ncol E ->
  (i < nrow E)%nat ->
  (forall j, (j < ncol E)%nat -> cell E i j = 0) ->
  exists r, rawToPoly pow xs E = Return r /\ r !! (i + 1)%nat = Some 1%float.
Proof.
  intros Hrows Hlen Hi Hzero.
  exists (expansion pow xs E). split; [now apply rawToPoly_agree|].
  rewrite expansion_row, row_value_zip by done.
  rewrite times_if_positive_zeros; [done|].
  now apply Forall_row.
Qed.

Lemma rawToPoly_zero_row_witness :
  Z.of_nat (nrow E_zero_row) < INT_MAX /\
  length [5; 0]%float = ncol E_zero_row /\
  (1 < nrow E_zero_row)%nat /\
  (forall j, (j < ncol E_zero_row)%nat ->
     cell E_zero_row 1 j = 0) /\
  exists r, rawToPoly pow_by_mul [5; 0]%float E_zero_row = Return r /\
    r !! (1 + 1)%nat = Some 1%float.
Proof.
  assert (Hzero : forall j, (j < ncol E_zero_row)%nat ->
                    cell E_zero_row 1 j = 0).
  { intros j Hj. destruct j as [|[|j]]; [reflexivity..|simpl in Hj; lia]. }
  split; [reflexivity|]. split; [reflexivity|]. split; [simpl; lia|].
  split; [exact Hzero|].
  apply (rawToPoly_zero_row pow_by_mul [5; 0]%float E_zero_row 1%nat);
    [reflexivity | reflexivity | simpl; lia | exact Hzero].
Defined.

(** *** At [INT_MAX] rows *)

(** C1: on the matrix of [INT_MAX] rows and no column, with the empty [x],
    the lengths agree and no entry is negative, yet [n_poly + 1] overflows
    and the function returns no vector: there is no result whose elements
    are the products of the powers. *)
Theorem rawToPoly_monomials_at_max_rows pow :
  length (@nil float) = ncol E_max_rows /\
  (forall i j, (i < nrow E_max_rows)%nat -> (j < ncol E_max_rows)%nat ->
     0 <= cell E_max_rows i j) /\
  rawToPoly pow [] E_max_rows = Undefined /\
  ~ exists r, rawToPoly pow [] E_max_rows = Return r /\
      forall i, (i < nrow E_max_rows)%nat ->
        r !! (i + 1)%nat = Some (product (zip_with pow [] (row E_max_rows i))).
Proof.
  split; [reflexivity|]. split.
  - intros i j _ Hj. change (ncol E_max_rows) with 0%nat in Hj. lia.
  - split; [apply rawToPoly_E_max_rows|].
    intros (r & Hr & _). rewrite rawToPoly_E_max_rows in Hr. discriminate.
Qed.

(** C2: on the matrix of [INT_MAX] rows and no column, with the empty [x],
    the lengths agree, yet [n_poly + 1] overflows and the function returns
    no vector, so none of [nrow + 1] elements. *)
Theorem rawToPoly_length_at_max_rows pow :
  length (@nil float) = ncol E_max_rows /\
  rawToPoly pow [] E_max_rows = Undefined /\
  ~ exists r, rawToPoly pow [] E_max_rows = Return r /\
      length r = (nrow E_max_rows + 1)%nat.
Proof.
  split; [reflexivity|]. split; [apply rawToPoly_E_max_rows|].
  intros (r & Hr & _). rewrite rawToPoly_E_max_rows in Hr. discriminate.
Qed.

(** C3: on the matrix of [INT_MAX] rows and no column, with the empty [x],
    the lengths agree, yet the function returns no vector, so none whose
    first element is [1.0]. *)
Theorem rawToPoly_first_at_max_rows pow :
  length (@nil float) = ncol E_max_rows /\
  rawToPoly pow [] E_max_rows = Undefined /\
  ~ exists r, rawToPoly pow [] E_max_rows = Return r /\ r !! 0%nat = Some 1%float.
Proof.
  split; [reflexivity|]. split; [apply rawToPoly_E_max_rows|].
  intros (r & Hr & _). rewrite rawToPoly_E_max_rows in Hr. discriminate.
Qed.

(** ** The shape of the inputs *)

(** C4: the function stops with the shape-mismatch message exactly when the
    length of [x] differs from the number of columns of [E], and it stops
    with nothing done: [ans] is not allocated, [pow] has not been called,
    the objects are as the call found them. *)
Theorem rawToPoly_shape_mismatch pow xs E :
  ((exists msg, rawToPoly pow xs E = Stop msg) <-> length xs <> ncol E) /\
  (rawToPoly pow xs E = Stop ShapeMismatch <-> length xs <> ncol E) /\
  (length xs <> ncol E -> (run pow xs E).2 = enter xs E).
Proof.
  unfold rawToPoly.
  destruct (run_cases pow xs E) as [(Hlen & ->)|[(Hlen & _ & ->)|(Hlen & _ & ->)]];
    cbn [fst snd].
  - repeat split; try done. intros _. now exists ShapeMismatch.
  - repeat split; try done. intros [msg Hmsg]. discriminate.
  - repeat split; try done. intros [msg Hmsg]. discriminate.
Qed.

Lemma rawToPoly_shape_mismatch_witness :
  length [1; 2; 3]%float <> ncol E_one_row /\
  rawToPoly pow_by_mul [1; 2; 3]%float E_one_row = Stop ShapeMismatch.
Proof.
  assert (H : length [1; 2; 3]%float <> ncol E_one_row)
    by (simpl; lia).
  split; [exact H|].
  apply (rawToPoly_shape_mismatch pow_by_mul [1; 2; 3]%float E_one_row).
  exact H.
Defined.

(** ** Negative and zero entries *)

(** On [x = [2]] and [E = [[-1]]] the power operation is not called at
    all, and the element of the result stays [1.0]. *)
Lemma negative_exponent_not_passed :
  ~ negative_exponents_reach_pow pow_by_mul [2]%float E_minus_one /\
  run pow_by_mul [2]%float E_minus_one
  = (Return [1; 1]%float,
     {| x := [2]%float; poly_terms := E_minus_one;
        ans := Some [1; 1]%float; powers := Some [-1]; pow_calls := [] |}).
Proof.
  split; [|reflexivity].
  intros H. specialize (H 0%nat 0%nat).
  vm_compute in H.
  assert (Hin : (2%float, -1) ∈ @nil (float * Z)) by (apply H; constructor).
  inversion Hin.
Qed.

(** C5 (amended): a negative entry of [E] never reaches the power
    operation.  The test of line 25 lets only positive exponents through,
    so the outcome and the calls of [pow] are those of the matrix with the
    negative entries replaced by [0], and no call has a negative
    exponent. *)
Theorem rawToPoly_negative_guarded pow xs E :
  rawToPoly pow xs E = rawToPoly pow xs (zero_negatives E) /\
  pow_calls (run pow xs E).2 = pow_calls (run pow xs (zero_negatives E)).2 /\
  Forall (fun c => ~ c.2 < 0) (pow_calls (run pow xs E).2).
Proof.
  split; [|split].
  - unfold rawToPoly.
    destruct (run_cases pow xs E) as [(Hlen & ->)|[(Hlen & Hr & ->)|(Hlen & Hr & ->)]].
    + now rewrite run_differ by done.
    + now rewrite run_overflow by done.
    + rewrite run_agree by done. cbn [fst].
      now rewrite expansion_zero_negatives.
  - destruct (run_cases pow xs E) as [(Hlen & ->)|[(Hlen & Hr & ->)|(Hlen & Hr & ->)]].
    + now rewrite run_differ by done.
    + now rewrite run_overflow by done.
    + rewrite run_agree by done. cbn [snd pow_calls].
      now rewrite all_calls_zero_negatives.
  - eapply Forall_impl; [apply pow_calls_positive|].
    intros c Hc. cbn in Hc. lia.
Qed.

(** C6: on the matrix of [INT_MAX] rows and no column, with the empty [x],
    the lengths agree, yet the function returns no vector, so none whose
    elements are the products over the positive entries. *)
Theorem rawToPoly_positive_entries_at_max_rows pow :
  length (@nil float) = ncol E_max_rows /\
  rawToPoly pow [] E_max_rows = Undefined /\
  ~ exists r, rawToPoly pow [] E_max_rows = Return r /\
      forall i, (i < nrow E_max_rows)%nat ->
        r !! (i + 1)%nat
        = Some (product (map (fun be => pow be.1 be.2)
                           (filter (fun be => 0 < be.2)
                              (zip [] (row E_max_rows i))))).
Proof.
  split; [reflexivity|]. split; [apply rawToPoly_E_max_rows|].
  intros (r & Hr & _). rewrite rawToPoly_E_max_rows in Hr. discriminate.
Qed.

(** C7: on the matrix of [INT_MAX] rows and no column, with the empty [x],
    the lengths agree and row [0] holds only zeros (it holds nothing), yet
    the function returns no vector, so none whose element [1] is [1.0]. *)
Theorem rawToPoly_zero_row_at_max_rows pow :
  length (@nil float) = ncol E_max_rows /\
  (0 < nrow E_max_rows)%nat /\
  (forall j, (j < ncol E_max_rows)%nat -> cell E_max_rows 0 j = 0) /\
  rawToPoly pow [] E_max_rows = Undefined /\
  ~ exists r, rawToPoly pow [] E_max_rows = Return r /\
      r !! (0 + 1)%nat = Some 1%float.
Proof.
  split; [reflexivity|]. split.
  - pose proof nrow_E_max_rows as H. unfold INT_MAX in H. lia.
  - split.
    + intros j Hj. change (ncol E_max_rows) with 0%nat in Hj. lia.
    + split; [apply rawToPoly_E_max_rows|].
      intros (r & Hr & _). rewrite rawToPoly_E_max_rows in Hr. discriminate.
Qed.

(** C8: on every input, no call of the power operation has the exponent
    [0]; in particular [pow(0.0, 0)] is never evaluated. *)
Theorem pow_never_zero_exponent pow xs E :
  Forall (fun c => c.2 <> 0) (pow_calls (run pow xs E).2) /\
  (0%float, 0) ∉ pow_calls (run pow xs E).2.
Proof.
  assert (H : Forall (fun c => c.2 <> 0) (pow_calls (run pow xs E).2)).
  { eapply Forall_impl; [apply pow_calls_positive|].
    intros c Hc. cbn in Hc. lia. }
  split; [exact H|].
  intros Hin. rewrite Forall_forall in H. now apply (H _ Hin).
Qed.

(** C10: on [x = [2, 3]] and [E = [[1,0],[0,1],[1,1],[2,0]]] the function
    returns [[1.0, 2.0, 3.0, 6.0, 4.0]], for a power operation that is
    exact on the three powers the call asks for. *)
Theorem rawToPoly_example pow :
  pow 2%float 1 = 2%float ->
  pow 3%float 1 = 3%float ->
  pow 2%float 2 = 4%float ->
  rawToPoly pow [2; 3]%float E_2_3 = Return [1; 2; 3; 6; 4]%float.
Proof.
  intros H21 H31 H22.
  unfold rawToPoly, run, E_2_3. vm_compute.
  rewrite H21, H31, H22. reflexivity.
Qed.

Lemma rawToPoly_example_witness :
  pow_by_mul 2%float 1 = 2%float /\
  pow_by_mul 3%float 1 = 3%float /\
  pow_by_mul 2%float 2 = 4%float /\
  rawToPoly pow_by_mul [2; 3]%float E_2_3 = Return [1; 2; 3; 6; 4]%float.
Proof.
  split; [reflexivity|]. split; [reflexivity|]. split; [reflexivity|].
  apply (rawToPoly_example pow_by_mul); reflexivity.
Defined.

(** ** Every index is within bounds *)

Section Bounds.

Variable pow : float -> Z -> float.

Lemma row_checked_Some E i :
  length (cells E) = (nrow E * ncol E)%nat -> (i < nrow E)%nat ->
  row_checked E i = Some (row E i).
Proof.
  intros Hwf Hi. unfold row_checked, row.
  apply mapM_Some, Forall2_fmap_r, Forall_Forall2_diag, Forall_seq.
  intros j Hj. unfold cell, compose.
  destruct (lookup_lt_is_Some_2 (cells E) (i + j * nrow E)) as [v Hv]; [nia|].
  now rewrite Hv.
Qed.

Lemma each_power_checked_ok i j xs E a p log :
  (j < length xs)%nat -> (j < length p)%nat -> (i + 1 < length a)%nat ->
  each_power_checked pow i j
    {| x := xs; poly_terms := E; ans := Some a; powers := Some p; pow_calls := log |}
  = each_power pow i j
    {| x := xs; poly_terms := E; ans := Some a; powers := Some p; pow_calls := log |}.
Proof.
  intros Hx Hp Ha.
  destruct (lookup_lt_is_Some_2 _ _ Hx) as [b Hb].
  destruct (lookup_lt_is_Some_2 _ _ Hp) as [e He].
  destruct (lookup_lt_is_Some_2 _ _ Ha) as [v Hv].
  unfold each_power_checked, each_power, powers_at_checked, powers_at,
    x_at_checked, x_at, ans_mul_assign_checked, ans_mul_assign,
    ans_at_checked, ans_at, call_pow, in_bounds, gets, modify, ret, bind.
  cbn [x ans powers pow_calls log_pow].
  change (default [] (Some p)) with p. change (default [] (Some a)) with a.
  rewrite He. cbn [default from_option id].
  destruct (0 <? e); [|reflexivity].
  cbn [x ans powers pow_calls log_pow].
  rewrite Hb. cbn [ans]. change (default [] (Some a)) with a.
  now rewrite Hv.
Qed.

Lemma for_each_power_checked i xs E p js : forall a log,
  (forall j, j ∈ js -> (j < length xs)%nat /\ (j < length p)%nat) ->
  (i + 1 < length a)%nat ->
  for_each js (each_power_checked pow i)
    {| x := xs; poly_terms := E; ans := Some a; powers := Some p; pow_calls := log |}
  = for_each js (each_power pow i)
    {| x := xs; poly_terms := E; ans := Some a; powers := Some p; pow_calls := log |}.
Proof.
  induction js as [|j js IH]; intros a log Hjs Ha; [reflexivity|].
  destruct (Hjs j) as [Hx Hp]; [left|].
  rewrite !for_each_cons, each_power_checked_ok, each_power_step by done.
  apply IH.
  - intros k Hk. apply Hjs. now right.
  - destruct (0 <? default 0 (p !! j)); [now rewrite length_insert | done].
Qed.

Lemma each_row_checked_ok i xs E a p log :
  length (cells E) = (nrow E * ncol E)%nat -> length xs = ncol E ->
  (i < nrow E)%nat -> (i + 1 < length a)%nat ->
  each_row_checked pow (ncol E) i
    {| x := xs; poly_terms := E; ans := Some a; powers := Some p; pow_calls := log |}
  = each_row pow (ncol E) i
    {| x := xs; poly_terms := E; ans := Some a; powers := Some p; pow_calls := log |}.
Proof.
  intros Hwf Hlen Hi Ha.
  unfold each_row_checked, each_row, for_upto, in_bounds, gets, modify, bind,
    set_powers.
  cbn [x poly_terms ans powers pow_calls].
  rewrite (row_checked_Some E i Hwf Hi).
  cbn [x poly_terms ans powers pow_calls].
  apply for_each_power_checked; [|exact Ha].
  intros j Hj. apply elem_of_seq in Hj. rewrite length_row. lia.
Qed.

Lemma for_each_row_checked xs E rows : forall a p log,
  length (cells E) = (nrow E * ncol E)%nat -> length xs = ncol E ->
  (forall i, i ∈ rows -> (i < nrow E)%nat /\ (i + 1 < length a)%nat) ->
  for_each rows (each_row_checked pow (ncol E))
    {| x := xs; poly_terms := E; ans := Some a; powers := Some p; pow_calls := log |}
  = for_each rows (each_row pow (ncol E))
    {| x := xs; poly_terms := E; ans := Some a; powers := Some p; pow_calls := log |}.
Proof.
  induction rows as [|i rows IH]; intros a p log Hwf Hlen Hrows; [reflexivity|].
  destruct (Hrows i) as [Hi Ha]; [left|].
  rewrite !for_each_cons, each_row_checked_ok, each_row_step by done.
  apply IH; [done..|].
  intros k Hk. unfold after_row. rewrite length_insert. apply Hrows. now right.
Qed.

Lemma run_checked_differ xs E :
  length xs <> ncol E ->
  run_checked pow xs E = (Stop ShapeMismatch, enter xs E).
Proof.
  intros Hlen.
  unfold run_checked, rawToPoly_body_checked, enter, gets, modify, stop, ret,
    bind at 1 2 3 4.
  cbn [x poly_terms].
  apply Nat.eqb_neq in Hlen. now rewrite Hlen.
Qed.

Lemma run_checked_overflow xs E :
  length xs = ncol E -> INT_MAX <= Z.of_nat (nrow E) ->
  run_checked pow xs E = (Undefined, enter xs E).
Proof.
  intros Hlen Hrows.
  unfold run_checked, rawToPoly_body_checked, enter, gets, modify, stop, ret,
    bind at 1 2 3 4.
  cbn [x poly_terms].
  rewrite Hlen, Nat.eqb_refl. cbn [negb].
  unfold bind at 1. now rewrite int_add_overflow by lia.
Qed.

Lemma run_checked_ok xs E :
  length (cells E) = (nrow E * ncol E)%nat ->
  run_checked pow xs E = run pow xs E.
Proof.
  intros Hwf.
  destruct (run_cases pow xs E) as [(Hlen & ->)|[(Hlen & Hr & ->)|(Hlen & Hr & Hrun)]].
  - now apply run_checked_differ.
  - now apply run_checked_overflow.
  - clear Hrun.
    assert (Hc : (INT_MIN <=? Z.of_nat (nrow E) + 1)
                 && (Z.of_nat (nrow E) + 1 <=? INT_MAX) = true).
    { apply andb_true_intro. split; apply Z.leb_le; unfold INT_MIN; lia. }
    unfold run_checked, run, rawToPoly_body_checked, rawToPoly_body, enter,
      gets, modify, stop, ret, bind, int_add, for_upto, set_ans, set_powers.
    cbn [x poly_terms ans powers pow_calls].
    rewrite Hlen, Nat.eqb_refl. cbn [negb]. rewrite Hc.
    cbn [x poly_terms ans powers pow_calls].
    replace (Z.to_nat (Z.of_nat (nrow E) + 1)) with (nrow E + 1)%nat by lia.
    rewrite for_each_row_checked; [reflexivity|done..|].
    intros i Hi. apply elem_of_seq in Hi. rewrite length_replicate. lia.
Qed.

End Bounds.

(** ** The result and the calls as wholes *)

Section Whole.

Variable pow : float -> Z -> float.

Lemma expansion_whole xs E :
  expansion pow xs E
  = 1%float :: map (fun i => row_value pow xs E i 1%float) (seq 0 (nrow E)).
Proof.
  apply list_eq. intros [|k].
  - apply expansion_first.
  - match goal with |- _ = (?h :: ?l) !! S k =>
      change ((h :: l) !! S k) with (l !! k) end.
    destruct (decide (k < nrow E)%nat) as [Hk|Hk].
    + replace (S k) with (k + 1)%nat by lia.
      rewrite expansion_row, list_lookup_fmap, lookup_seq_lt by done.
      reflexivity.
    + rewrite !lookup_ge_None_2; [done| |].
      * rewrite length_map, length_seq. lia.
      * rewrite length_expansion. lia.
Qed.

Lemma lookup_row E i j :
  (j < ncol E)%nat -> row E i !! j = Some (cell E i j).
Proof.
  intros Hj. unfold row. now rewrite list_lookup_fmap, lookup_seq_lt.
Qed.

Lemma fold_left_pointwise_in {A B} (f g : A -> B -> A) l :
  (forall a b, b ∈ l -> f a b = g a b) ->
  forall a, fold_left f l a = fold_left g l a.
Proof.
  induction l as [|b l IH]; intros Hfg a; cbn; [done|].
  rewrite Hfg by left. apply IH. intros a' b' Hb'. apply Hfg. now right.
Qed.

Lemma times_power_skip_all xs p l : forall acc,
  (forall k, k ∈ l -> default 0 (p !! k) <= 0) ->
  fold_left (times_power pow xs p) l acc = acc.
Proof.
  induction l as [|k l IH]; intros acc Hl; cbn; [done|].
  rewrite times_power_skip.
  - apply IH. intros k' Hk'. apply Hl. now right.
  - apply Z.ltb_ge, Hl. left.
Qed.

Lemma power_call_shift b e xs p n : forall k,
  flat_map (power_call (b :: xs) (e :: p)) (seq (S k) n)
  = flat_map (power_call xs p) (seq k n).
Proof.
  induction n as [|n IH]; intros k; cbn [seq flat_map]; [done|].
  now rewrite IH.
Qed.

Lemma power_call_zip xs : forall p,
  length xs = length p ->
  flat_map (power_call xs p) (seq 0 (length xs))
  = filter (fun be => 0 < be.2) (zip xs p).
Proof.
  induction xs as [|b xs IH]; intros [|e p] Hlen; try done.
  cbn [length seq flat_map zip zip_with].
  rewrite power_call_shift, IH by (cbn in Hlen; lia).
  unfold power_call at 1. cbn [lookup list_lookup default from_option id].
  destruct (Z.ltb_spec 0 e) as [Hpos|Hneg].
  - now rewrite filter_cons_True.
  - rewrite filter_cons_False; [done|]. cbn. lia.
Qed.

Lemma row_calls_pairs xs E i :
  length xs = ncol E -> row_calls xs E i = positive_pairs xs E i.
Proof.
  intros Hlen. unfold row_calls, positive_pairs. rewrite <- Hlen.
  apply power_call_zip. now rewrite length_row.
Qed.

Lemma length_flat_map_le {A B} (f : A -> list B) c l :
  (forall a, (length (f a) <= c)%nat) ->
  (length (flat_map f l) <= length l * c)%nat.
Proof.
  intros Hf. induction l as [|a l IH]; cbn; [lia|].
  rewrite length_app. specialize (Hf a). lia.
Qed.

Lemma length_all_calls xs E :
  (length (all_calls xs E) <= nrow E * ncol E)%nat.
Proof.
  unfold all_calls.
  etransitivity; [apply (length_flat_map_le _ (ncol E))|].
  - intros i. unfold row_calls.
    etransitivity; [apply (length_flat_map_le _ 1)|].
    + intros j. unfold power_call. destruct (0 <? _); cbn; lia.
    + rewrite length_seq. lia.
  - now rewrite length_seq.
Qed.

Lemma map_const_seq {A} (a : A) n k :
  map (fun _ => a) (seq k n) = replicate n a.
Proof. revert k. induction n as [|n IH]; intros k; cbn; [done|]. now rewrite IH. Qed.

End Whole.

(** ** Further properties of [rawToPoly] *)

Example run_checked_short :
  (run_checked pow_by_mul [2; 3]%float E_short).1 = Stop OutOfBounds.
Proof. reflexivity. Qed.

(** X1: on a matrix that holds [nrow * ncol] entries, no element access of
    the function is out of range: the run with every access checked is the
    run itself, and does not end at an access. *)
Theorem rawToPoly_in_bounds pow xs E :
  length (cells E) = (nrow E * ncol E)%nat ->
  run_checked pow xs E = run pow xs E /\
  (run_checked pow xs E).1 <> Stop OutOfBounds.
Proof.
  intros Hwf. rewrite (run_checked_ok pow xs E Hwf). split; [reflexivity|].
  destruct (run_cases pow xs E) as [(_ & ->)|[(_ & _ & ->)|(_ & _ & ->)]];
    cbn [fst]; discriminate.
Qed.

Lemma rawToPoly_in_bounds_witness :
  length (cells E_2_3) = (nrow E_2_3 * ncol E_2_3)%nat /\
  run_checked pow_by_mul [2; 3]%float E_2_3 = run pow_by_mul [2; 3]%float E_2_3 /\
  (run_checked pow_by_mul [2; 3]%float E_2_3).1 <> Stop OutOfBounds.
Proof.
  split; [reflexivity|].
  apply (rawToPoly_in_bounds pow_by_mul [2; 3]%float E_2_3). reflexivity.
Defined.

(** X2: when [E] has fewer than [INT_MAX] rows and the lengths agree, the
    power operation is called once for each positive entry of [E] and for
    nothing else, row after row and within a row column after column, with
    [x[j]] as the base and the entry as the exponent. *)
Theorem rawToPoly_pow_calls pow xs E :
  Z.of_nat (nrow E) < INT_MAX ->
  length xs = ncol E ->
  pow_calls (run pow xs E).2 = flat_map (positive_pairs xs E) (seq 0 (nrow E)).
Proof.
  intros Hrows Hlen. rewrite (run_agree pow xs E Hlen Hrows).
  cbn [snd pow_calls].
  unfold all_calls. apply flat_map_ext. intros i.
  now apply row_calls_pairs.
Qed.

Lemma rawToPoly_pow_calls_witness :
  Z.of_nat (nrow E_signs) < INT_MAX /\
  length [2; 3]%float = ncol E_signs /\
  pow_calls (run pow_by_mul [2; 3]%float E_signs).2
  = flat_map (positive_pairs [2; 3]%float E_signs) (seq 0 (nrow E_signs)).
Proof.
  split; [reflexivity|]. split; [reflexivity|].
  apply (rawToPoly_pow_calls pow_by_mul [2; 3]%float E_signs); reflexivity.
Defined.

(** X3: on every input the power operation is called at most
    [nrow * ncol] times. *)
Theorem rawToPoly_pow_calls_bound pow xs E :
  (length (pow_calls (run pow xs E).2) <= nrow E * ncol E)%nat.
Proof.
  destruct (run_cases pow xs E) as [(_ & ->)|[(_ & _ & ->)|(_ & _ & ->)]];
    cbn [snd pow_calls enter length]; [lia | lia | apply length_all_calls].
Qed.

(** X4: for a matrix of fewer than [INT_MAX] rows and no column, and the
    empty [x], the function returns [nrow + 1] elements all equal to [1.0]
    and never calls the power operation. *)
Theorem rawToPoly_no_columns pow E :
  Z.of_nat (nrow E) < INT_MAX ->
  ncol E = 0%nat ->
  rawToPoly pow [] E = Return (replicate (nrow E + 1) 1%float) /\
  pow_calls (run pow [] E).2 = [].
Proof.
  intros Hrows Hcol.
  assert (Hlen : length (@nil float) = ncol E) by now rewrite Hcol.
  split.
  - rewrite (rawToPoly_agree pow [] E Hlen Hrows), expansion_whole.
    unfold row_value. rewrite Hcol. cbn [seq fold_left].
    now rewrite map_const_seq, Nat.add_1_r.
  - rewrite (run_agree pow [] E Hlen Hrows). cbn [snd pow_calls].
    apply length_zero_iff_nil. pose proof (length_all_calls [] E) as Hle.
    rewrite Hcol in Hle. lia.
Qed.

Lemma rawToPoly_no_columns_witness :
  Z.of_nat (nrow E_no_columns) < INT_MAX /\
  ncol E_no_columns = 0%nat /\
  rawToPoly pow_by_mul [] E_no_columns
  = Return (replicate (nrow E_no_columns + 1) 1%float) /\
  pow_calls (run pow_by_mul [] E_no_columns).2 = [].
Proof.
  split; [reflexivity|]. split; [reflexivity|].
  apply (rawToPoly_no_columns pow_by_mul E_no_columns); reflexivity.
Defined.

(** X5: for a matrix without rows, and [x] as long as the matrix has
    columns, the function returns the single element [1.0] and never calls
    the power operation. *)
Theorem rawToPoly_no_rows pow xs E :
  nrow E = 0%nat -> length xs = ncol E ->
  rawToPoly pow xs E = Return [1%float] /\
  pow_calls (run pow xs E).2 = [].
Proof.
  intros Hrow Hlen.
  assert (Hrows : Z.of_nat (nrow E) < INT_MAX) by (rewrite Hrow; reflexivity).
  split.
  - rewrite (rawToPoly_agree pow xs E Hlen Hrows), expansion_whole.
    now rewrite Hrow.
  - rewrite (run_agree pow xs E Hlen Hrows). cbn [snd pow_calls].
    unfold all_calls. now rewrite Hrow.
Qed.

Lemma rawToPoly_no_rows_witness :
  nrow E_no_rows = 0%nat /\ length [2; 3]%float = ncol E_no_rows /\
  rawToPoly pow_by_mul [2; 3]%float E_no_rows = Return [1%float] /\
  pow_calls (run pow_by_mul [2; 3]%float E_no_rows).2 = [].
Proof.
  split; [reflexivity|]. split; [reflexivity|].
  apply (rawToPoly_no_rows pow_by_mul [2; 3]%float E_no_rows); reflexivity.
Defined.

(** X6: an element of the result depends on its own row only: for two
    matrices of fewer than [INT_MAX] rows, when row [i] of [E] and row [i']
    of [E'] are equal, element [i+1] of the result for [E] is element
    [i'+1] of the result for [E'], whatever the other rows are. *)
Theorem rawToPoly_row_local pow xs E E' i i' :
  Z.of_nat (nrow E) < INT_MAX -> Z.of_nat (nrow E') < INT_MAX ->
  length xs = ncol E -> ncol E' = ncol E ->
  (i < nrow E)%nat -> (i' < nrow E')%nat ->
  row E i = row E' i' ->
  exists r r', rawToPoly pow xs E = Return r /\ rawToPoly pow xs E' = Return r' /\
    r !! (i + 1)%nat = r' !! (i' + 1)%nat.
Proof.
  intros Hrows Hrows' Hlen Hcol Hi Hi' Hrow.
  exists (expansion pow xs E), (expansion pow xs E').
  split; [now apply rawToPoly_agree|].
  split; [apply rawToPoly_agree; [congruence|done]|].
  rewrite !expansion_row by done. unfold row_value.
  now rewrite Hrow, Hcol.
Qed.

Lemma rawToPoly_row_local_witness :
  Z.of_nat (nrow E_2_3) < INT_MAX /\ Z.of_nat (nrow E_one_row) < INT_MAX /\
  length [2; 3]%float = ncol E_2_3 /\ ncol E_one_row = ncol E_2_3 /\
  (0 < nrow E_2_3)%nat /\ (0 < nrow E_one_row)%nat /\
  row E_2_3 0 = row E_one_row 0 /\
  exists r r', rawToPoly pow_by_mul [2; 3]%float E_2_3 = Return r /\
    rawToPoly pow_by_mul [2; 3]%float E_one_row = Return r' /\
    r !! (0 + 1)%nat = r' !! (0 + 1)%nat.
Proof.
  split; [reflexivity|]. split; [reflexivity|].
  split; [reflexivity|]. split; [reflexivity|]. split; [simpl; lia|].
  split; [simpl; lia|]. split; [reflexivity|].
  apply (rawToPoly_row_local pow_by_mul [2; 3]%float E_2_3 E_one_row 0 0);
    [reflexivity | reflexivity | reflexivity | reflexivity
    | simpl; lia | simpl; lia | reflexivity].
Defined.

(** X7: for a matrix of fewer than [INT_MAX] rows, element [i+1] of the
    result reads [x] only where row [i] has a positive entry: two vectors
    that agree on those columns give the same element, so a NaN or an
    infinity of [x] in a column whose entry is zero or negative does not
    reach it. *)
Theorem rawToPoly_unused_variable pow xs xs' E i :
  Z.of_nat (nrow E) < INT_MAX ->
  length xs = ncol E -> length xs' = ncol E -> (i < nrow E)%nat ->
  (forall j, (j < ncol E)%nat -> 0 < cell E i j -> xs !! j = xs' !! j) ->
  exists r r', rawToPoly pow xs E = Return r /\ rawToPoly pow xs' E = Return r' /\
    r !! (i + 1)%nat = r' !! (i + 1)%nat.
Proof.
  intros Hrows Hlen Hlen' Hi Hsame.
  exists (expansion pow xs E), (expansion pow xs' E).
  split; [now apply rawToPoly_agree|].
  split; [now apply rawToPoly_agree|].
  rewrite !expansion_row by done. f_equal. unfold row_value.
  apply fold_left_pointwise_in. intros acc j Hj.
  apply elem_of_seq in Hj. unfold times_power.
  rewrite lookup_row by lia. cbn [default from_option id].
  destruct (Z.ltb_spec 0 (cell E i j)) as [Hpos|Hneg]; [|done].
  rewrite (Hsame j) by (lia || done). reflexivity.
Qed.

Lemma rawToPoly_unused_variable_witness :
  Z.of_nat (nrow E_signs) < INT_MAX /\
  length [2; 3]%float = ncol E_signs /\
  length [nan; 3]%float = ncol E_signs /\
  (0 < nrow E_signs)%nat /\
  (forall j, (j < ncol E_signs)%nat -> 0 < cell E_signs 0 j ->
     [2; 3]%float !! j = [nan; 3]%float !! j) /\
  exists r r', rawToPoly pow_by_mul [2; 3]%float E_signs = Return r /\
    rawToPoly pow_by_mul [nan; 3]%float E_signs = Return r' /\
    r !! (0 + 1)%nat = r' !! (0 + 1)%nat.
Proof.
  assert (Hsame : forall j, (j < ncol E_signs)%nat -> 0 < cell E_signs 0 j ->
            [2; 3]%float !! j = [nan; 3]%float !! j).
  { intros j Hj Hpos. destruct j as [|[|j]];
      [vm_compute in Hpos; discriminate | reflexivity | simpl in Hj; lia]. }
  split; [reflexivity|].
  split; [reflexivity|]. split; [reflexivity|]. split; [simpl; lia|].
  split; [exact Hsame|].
  apply (rawToPoly_unused_variable pow_by_mul [2; 3]%float [nan; 3]%float E_signs 0);
    [reflexivity | reflexivity | reflexivity | simpl; lia | exact Hsame].
Defined.

(** X8: for a matrix of fewer than [INT_MAX] rows, when row [i] has one
    positive entry only, at column [j], element [i+1] of the result is
    exactly what the power operation returns for [x[j]] and that entry: the
    multiplication by the initial [1.0] changes nothing. *)
Theorem rawToPoly_single_variable pow xs E i j :
  Z.of_nat (nrow E) < INT_MAX ->
  length xs = ncol E -> (i < nrow E)%nat -> (j < ncol E)%nat ->
  0 < cell E i j ->
  (forall k, (k < ncol E)%nat -> k <> j -> cell E i k <= 0) ->
  exists r, rawToPoly pow xs E = Return r /\
    r !! (i + 1)%nat = Some (pow (default 0%float (xs !! j)) (cell E i j)).
Proof.
  intros Hrows Hlen Hi Hj Hpos Hrest.
  exists (expansion pow xs E). split; [now apply rawToPoly_agree|].
  rewrite expansion_row by done. f_equal. unfold row_value.
  replace (ncol E) with (j + S (ncol E - S j))%nat at 1 by lia.
  rewrite seq_app, fold_left_app. cbn [seq fold_left Nat.add].
  rewrite (times_power_skip_all pow xs (row E i) (seq 0 j)).
  - rewrite times_power_skip_all.
    + unfold times_power. rewrite lookup_row by done.
      cbn [default from_option id].
      apply Z.ltb_lt in Hpos. rewrite Hpos. apply Binary64.mul_one_l.
    + intros k Hk. apply elem_of_seq in Hk.
      rewrite lookup_row by lia. apply Hrest; lia.
  - intros k Hk. apply elem_of_seq in Hk.
    rewrite lookup_row by lia. apply Hrest; lia.
Qed.

Lemma rawToPoly_single_variable_witness :
  Z.of_nat (nrow E_cube) < INT_MAX /\
  length [2; 2; 2]%float = ncol E_cube /\
  (0 < nrow E_cube)%nat /\ (0 < ncol E_cube)%nat /\
  0 < cell E_cube 0 0 /\
  (forall k, (k < ncol E_cube)%nat -> k <> 0%nat -> cell E_cube 0 k <= 0) /\
  exists r, rawToPoly pow_by_mul [2; 2; 2]%float E_cube = Return r /\
    r !! (0 + 1)%nat
    = Some (pow_by_mul (default 0%float ([2; 2; 2]%float !! 0%nat)) (cell E_cube 0 0)).
Proof.
  assert (Hrest : forall k, (k < ncol E_cube)%nat -> k <> 0%nat ->
            cell E_cube 0 k <= 0).
  { intros k Hk Hne. destruct k as [|[|[|k]]];
      [congruence | vm_compute; discriminate | vm_compute; discriminate
      | simpl in Hk; lia]. }
  split; [reflexivity|].
  split; [reflexivity|]. split; [simpl; lia|]. split; [simpl; lia|].
  split; [reflexivity|]. split; [exact Hrest|].
  apply (rawToPoly_single_variable pow_by_mul [2; 2; 2]%float E_cube 0 0);
    [reflexivity | reflexivity | simpl; lia | simpl; lia | reflexivity
    | exact Hrest].
Defined.

(** X9: when [E] has fewer than [INT_MAX] rows and the lengths agree, the
    returned vector is [1.0] followed, row by row, by the product of the
    powers that the row's positive entries ask for; nothing else is in
    it. *)
Theorem rawToPoly_whole pow xs E :
  Z.of_nat (nrow E) < INT_MAX ->
  length xs = ncol E ->
  rawToPoly pow xs E
  = Return (1%float ::
            map (fun i => product (map (fun be => pow be.1 be.2)
                                     (positive_pairs xs E i)))
              (seq 0 (nrow E))).
Proof.
  intros Hrows Hlen.
  rewrite (rawToPoly_agree pow xs E Hlen Hrows), expansion_whole.
  do 2 f_equal. apply map_ext. intros i.
  rewrite row_value_zip by done. apply times_if_positive_filter.
Qed.

Lemma rawToPoly_whole_witness :
  Z.of_nat (nrow E_signs) < INT_MAX /\
  length [2; 3]%float = ncol E_signs /\
  rawToPoly pow_by_mul [2; 3]%float E_signs
  = Return (1%float ::
            map (fun i => product (map (fun be => pow_by_mul be.1 be.2)
                                     (positive_pairs [2; 3]%float E_signs i)))
              (seq 0 (nrow E_signs))).
Proof.
  split; [reflexivity|]. split; [reflexivity|].
  apply (rawToPoly_whole pow_by_mul [2; 3]%float E_signs); reflexivity.
Defined.

(** X10: the lengths are compared before any element is touched: when
    they differ the run stops with the shape-mismatch message without one
    access to [x], [poly_terms] or [ans], even on a matrix that holds fewer
    entries than its dimensions say. *)
Theorem rawToPoly_check_first pow xs E :
  length xs <> ncol E ->
  run_checked pow xs E = (Stop ShapeMismatch, enter xs E).
Proof. apply run_checked_differ. Qed.

Lemma rawToPoly_check_first_witness :
  length [2]%float <> ncol E_short /\
  run_checked pow_by_mul [2]%float E_short
  = (Stop ShapeMismatch, enter [2]%float E_short).
Proof.
  assert (H : length [2]%float <> ncol E_short) by (simpl; lia).
  split; [exact H|].
  apply (rawToPoly_check_first pow_by_mul [2]%float E_short). exact H.
Defined.

(** X16: at [INT_MAX] rows or more, with the lengths in agreement, the
    addition [n_poly + 1] of line 16 overflows: the run ends there, before
    [ans] is allocated and before any call of the power operation, and
    returns no vector. *)
Theorem rawToPoly_row_count_overflow pow xs E :
  length xs = ncol E -> INT_MAX <= Z.of_nat (nrow E) ->
  run pow xs E = (Undefined, enter xs E) /\
  forall r, rawToPoly pow xs E <> Return r.
Proof.
  intros Hlen Hrows. unfold rawToPoly.
  rewrite (run_overflow pow xs E Hlen Hrows).
  split; [reflexivity|]. intros r. discriminate.
Qed.

Lemma rawToPoly_row_count_overflow_witness :
  length (@nil float) = ncol E_max_rows /\
  INT_MAX <= Z.of_nat (nrow E_max_rows) /\
  run pow_by_mul [] E_max_rows = (Undefined, enter [] E_max_rows) /\
  forall r, rawToPoly pow_by_mul [] E_max_rows <> Return r.
Proof.
  assert (Hrows : INT_MAX <= Z.of_nat (nrow E_max_rows))
    by (rewrite nrow_E_max_rows; lia).
  split; [reflexivity|]. split; [exact Hrows|].
  apply (rawToPoly_row_count_overflow pow_by_mul [] E_max_rows);
    [reflexivity | exact Hrows].
Defined.
